(** * LevelDB Bloom filter policy (util/bloom.cc)

    A shallow embedding of [BloomFilterPolicy] -- its constructor,
    [CreateFilter] and [KeyMayMatch] -- and the properties of the filter
    that follow from the code.

    Conventions of the embedding (LP64 target):
    - [size_t] is a 64-bit unsigned integer, [uint32_t] a 32-bit one and
      [int] a 32-bit signed one; each is a [Z] with its wrap-around written
      out ([wrap64], [wrap32]);
    - [char] is a [byte]; whether plain [char] is signed is left to the
      platform ([char_signed]);
    - a [Slice] and a [std::string] are lists of bytes, their [size()] is
      the length of the list;
    - the operations that C++ leaves undefined inside the two methods
      (a modulo by zero, an access outside the string) make the embedded
      function return [None];
    - [Hash] (util/hash.h) is not part of this file: it is a parameter. *)

From Stdlib Require Import ZArith Lia Reals Lra.
From stdpp Require Import base option list.
From coqutil Require Import Byte.

Local Open Scope Z_scope.

(** ** Machine integers *)

Definition wrap64 (z : Z) : Z := z mod 2 ^ 64.
Definition wrap32 (z : Z) : Z := z mod 2 ^ 32.

Definition INT_MAX : Z := 2 ^ 31 - 1.

(** ** The double arithmetic of the constructor

    A finite binary64 number is [mant * 2 ^ expo].  Only what the
    constructor needs is modelled: the exact conversion of an [int], the
    literal [0.69], a product rounded to nearest-even on 53 bits of
    significand, and the truncation of a conversion to an integer.  The
    exponents met by [int * 0.69] stay far from the overflow and
    subnormal ranges, which are therefore left out. *)

Record binary64 := Binary64 { mant : Z; expo : Z }.

Definition int_to_double (n : Z) : binary64 := Binary64 n 0.

(** The literal [0.69], that is [0x1.6147ae147ae14p-1]. *)
Definition d0_69 : binary64 := Binary64 6214967485771284 (-53).

Definition round53 (x : binary64) : binary64 :=
  let a := Z.abs (mant x) in
  if a <? 2 ^ 53 then x
  else
    let s := Z.log2 a - 52 in
    let q := a / 2 ^ s in
    let r := a mod 2 ^ s in
    let half := 2 ^ (s - 1) in
    let q' := if (half <? r) || ((r =? half) && Z.odd q) then q + 1 else q in
    Binary64 (Z.sgn (mant x) * q') (expo x + s).

Definition double_mul (x y : binary64) : binary64 :=
  round53 (Binary64 (mant x * mant y) (expo x + expo y)).

(** Truncation toward zero, the first step of a floating-integral
    conversion. *)
Definition double_trunc (x : binary64) : Z :=
  if 0 <=? expo x then mant x * 2 ^ expo x
  else Z.quot (mant x) (2 ^ (- expo x)).

Definition clamp_1_30 (k : Z) : Z :=
  let k := if k <? 1 then 1 else k in
  if 30 <? k then 30 else k.

(** ** Slices *)

Abbreviation Slice := (list byte).

(** A stand-in for [Hash], used only to run the embedding on concrete
    inputs. *)
Definition sample_hash (data : list byte) (seed : Z) : Z :=
  fold_left (fun h b => h * 31 + byte.unsigned b) data seed.

Section Bloom.

(** [uint32_t Hash(const char* data, size_t n, uint32_t seed)] of
    util/hash.h; [data] and [n] are the bytes of the list. *)
Variable Hash : list byte -> Z -> Z.

(** What [static_cast<size_t>] of a double yields on the platform when the
    truncated value is not representable in [size_t] (the standard leaves
    it undefined; x86-64 wraps, AArch64 saturates). *)
Variable cast_oor : Z -> Z.

(** Whether plain [char] is a signed type on the platform. *)
Variable char_signed : bool.

Definition double_to_size_t (x : binary64) : Z :=
  let t := double_trunc x in
  if (0 <=? t) && (t <? 2 ^ 64) then t else wrap64 (cast_oor t).

Definition char_to_int (c : byte) : Z :=
  if char_signed && (128 <=? byte.unsigned c)
  then byte.unsigned c - 256
  else byte.unsigned c.

Definition char_to_size_t (c : byte) : Z := wrap64 (char_to_int c).

Definition int_to_char (z : Z) : byte := byte.of_Z z.

(** [static uint32_t BloomHash(const Slice& key)] *)
Definition BloomHash (key : Slice) : Z := wrap32 (Hash key 0xbc9f1d34).

(** [(h >> 17) | (h << 15)] on [uint32_t]. *)
Definition rotate_right_17 (h : Z) : Z :=
  Z.lor (Z.shiftr h 17) (wrap32 (Z.shiftl h 15)).

(** ** The policy *)

Record BloomFilterPolicy := MkBloomFilterPolicy {
  bits_per_key_ : Z;   (* size_t *)
  k_ : Z               (* size_t *)
}.

(** [explicit BloomFilterPolicy(int bits_per_key)] *)
Definition NewBloomFilterPolicy (bits_per_key : Z) : BloomFilterPolicy :=
  let k := double_to_size_t (double_mul (int_to_double bits_per_key) d0_69) in
  let k := if k <? 1 then 1 else k in
  let k := if 30 <? k then 30 else k in
  MkBloomFilterPolicy (wrap64 bits_per_key) k.

(** ** CreateFilter *)

(** [array[bitpos/8] |= (1 << (bitpos % 8))] where [array] points
    at offset [base] of the string [dst].
    The access is defined only inside the string. *)
Definition set_bit (dst : list byte) (base : nat) (bitpos : Z)
  : option (list byte) :=
  let i := (base + Z.to_nat (bitpos / 8))%nat in
  c ← dst !! i;
  Some (<[i := int_to_char (Z.lor (char_to_int c) (Z.shiftl 1 (bitpos mod 8)))]> dst).

(** The inner loop [for (size_t j = 0; j < k_; j++)], entered with [j]
    rounds left. *)
Fixpoint set_probes (j : nat) (bits h delta : Z) (base : nat)
    (dst : list byte) : option (list byte) :=
  match j with
  | O => Some dst
  | S j' =>
      if bits =? 0 then None                       (* h % 0 *)
      else
        let bitpos := wrap32 (h mod bits) in
        dst' ← set_bit dst base bitpos;
        set_probes j' bits (wrap32 (h + delta)) delta base dst'
  end.

(** The outer loop [for (int i = 0; i < n; i++)] over [keys[i]]. *)
Fixpoint add_keys (keys : list Slice) (k bits : Z) (base : nat)
    (dst : list byte) : option (list byte) :=
  match keys with
  | [] => Some dst
  | key :: rest =>
      let h := BloomHash key in
      let delta := rotate_right_17 h in
      dst' ← set_probes (Z.to_nat k) bits h delta base dst;
      add_keys rest k bits base dst'
  end.

(** The size computation at the head of [CreateFilter]: the number of
    bytes of the bit array for [n] keys. *)
Definition filter_bytes (p : BloomFilterPolicy) (n : Z) : Z :=
  let bits := wrap64 (n * bits_per_key_ p) in
  let bits := if bits <? 64 then 64 else bits in
  wrap64 (bits + 7) / 8.

(** [void CreateFilter(const Slice* keys, int n, std::string* dst)];
    the result is the new contents of [*dst]. *)
Definition CreateFilter (p : BloomFilterPolicy) (keys : list Slice)
    (dst : list byte) : option (list byte) :=
  let n := Z.of_nat (length keys) in
  let bytes := filter_bytes p n in
  let bits := wrap64 (bytes * 8) in
  let init_size := length dst in
  let dst := dst ++ replicate (Z.to_nat bytes) Byte.x00 in   (* resize *)
  let dst := dst ++ [int_to_char (k_ p)] in                  (* push_back *)
  add_keys keys (k_ p) bits init_size dst.

(** ** KeyMayMatch *)

(** The probe loop of [KeyMayMatch], entered with [j] rounds left. *)
Fixpoint test_probes (j : nat) (bits h delta : Z) (array : list byte)
  : option bool :=
  match j with
  | O => Some true
  | S j' =>
      if bits =? 0 then None                       (* h % 0 *)
      else
        let bitpos := wrap32 (h mod bits) in
        c ← array !! Z.to_nat (bitpos / 8);
        if Z.land (char_to_int c) (Z.shiftl 1 (bitpos mod 8)) =? 0
        then Some false
        else test_probes j' bits (wrap32 (h + delta)) delta array
  end.

(** [bool KeyMayMatch(const Slice& key, const Slice& bloom_filter)], a
    method of the policy [p]. *)
Definition KeyMayMatch (p : BloomFilterPolicy) (key bloom_filter : Slice)
  : option bool :=
  let len := Z.of_nat (length bloom_filter) in
  if len <? 2 then Some false
  else
    let bits := wrap64 ((len - 1) * 8) in
    c ← bloom_filter !! Z.to_nat (len - 1);
    let k := char_to_size_t c in
    if 30 <? k then Some true
    else
      let h := BloomHash key in
      let delta := rotate_right_17 h in
      test_probes (Z.to_nat k) bits h delta bloom_filter.

(** ** Specification-level views of the loops

    The bit positions probed for a hash value, the same in the builder and
    in the matcher, and the update of one bit as a total function. *)

Fixpoint probe_seq (j : nat) (bits h delta : Z) : list Z :=
  match j with
  | O => []
  | S j' => wrap32 (h mod bits) :: probe_seq j' bits (wrap32 (h + delta)) delta
  end.

Definition key_probes (k bits : Z) (key : Slice) : list Z :=
  probe_seq (Z.to_nat k) bits (BloomHash key) (rotate_right_17 (BloomHash key)).

Definition or_bit (m : Z) (c : byte) : byte :=
  int_to_char (Z.lor (char_to_int c) (Z.shiftl 1 m)).

Definition set_bit_at (base : nat) (dst : list byte) (bitpos : Z) : list byte :=
  alter (or_bit (bitpos mod 8)) (base + Z.to_nat (bitpos / 8))%nat dst.

(** Bit [bitpos] of the bit array that starts at offset [base] of [dst]. *)
Definition bit_at (base : nat) (dst : list byte) (bitpos : Z) : bool :=
  match dst !! (base + Z.to_nat (bitpos / 8))%nat with
  | Some c => Z.testbit (byte.unsigned c) (bitpos mod 8)
  | None => false
  end.

(** The buffer after [resize] and [push_back]. *)
Definition fresh_filter (p : BloomFilterPolicy) (n : Z) (dst : list byte)
  : list byte :=
  (dst ++ replicate (Z.to_nat (filter_bytes p n)) Byte.x00) ++ [int_to_char (k_ p)].

(** The bit array [CreateFilter] leaves in front of the [k_] byte. *)
Definition built_array (p : BloomFilterPolicy) (keys : list Slice) : list byte :=
  let bytes := filter_bytes p (Z.of_nat (length keys)) in
  foldl (set_bit_at 0) (replicate (Z.to_nat bytes) Byte.x00)
        (keys ≫= key_probes (k_ p) (8 * bytes)).

(** The value of [h % bits] in round [j] of the probe loop of either
    method: [h] starts as the Bloom hash of the key and [h += delta] has
    run [j] times on [uint32_t]. *)
Definition probe_position (bits : Z) (key : Slice) (j : Z) : Z :=
  wrap32 (BloomHash key + j * rotate_right_17 (BloomHash key)) mod bits.

(** The positions, among the first [nbits], of the bits that are set in
    the bit array at offset [base] of [dst]. *)
Definition set_bit_positions (base : nat) (dst : list byte) (nbits : Z) : list Z :=
  filter (fun q => bit_at base dst q = true) (seqZ 0 nbits).

(** ** The probe count *)

Lemma clamp_1_30_range k : 1 <= clamp_1_30 k <= 30.
Proof. unfold clamp_1_30. repeat case_match; lia. Qed.

Lemma k_clamp bits_per_key :
  k_ (NewBloomFilterPolicy bits_per_key) =
  clamp_1_30 (double_to_size_t (double_mul (int_to_double bits_per_key) d0_69)).
Proof. reflexivity. Qed.

Lemma k_range bits_per_key : 1 <= k_ (NewBloomFilterPolicy bits_per_key) <= 30.
Proof. rewrite k_clamp. apply clamp_1_30_range. Qed.

(** From [bits_per_key = 45] on the rounded product is at least 31: the
    exact product is above [31 * 2^53] ulps of [2^-53], a multiple of every
    rounding step the range of [int] can need. *)
Lemma double_trunc_mul_large bits_per_key :
  45 <= bits_per_key <= INT_MAX ->
  31 <= double_trunc (double_mul (int_to_double bits_per_key) d0_69) < 2 ^ 64.
Proof.
  unfold INT_MAX. intros Hb.
  unfold double_mul, int_to_double, d0_69, round53; cbn [mant expo].
  set (a := bits_per_key * 6214967485771284).
  assert (Ha : 31 * 2 ^ 53 <= a < 2 ^ 84) by (unfold a; lia).
  rewrite (Z.abs_eq a) by lia.
  destruct (Z.ltb_spec a (2 ^ 53)) as [?|_]; [lia|].
  set (s := Z.log2 a - 52).
  assert (Hs : 5 <= s <= 31).
  { assert (57 <= Z.log2 a) by (apply Z.log2_le_pow2; lia).
    assert (Z.log2 a < 84) by (apply Z.log2_lt_pow2; lia).
    unfold s; lia. }
  assert (Hlog : 2 ^ Z.log2 a <= a < 2 ^ Z.succ (Z.log2 a))
    by (apply Z.log2_spec; lia).
  assert (Hpow : 2 ^ Z.succ (Z.log2 a) = 2 ^ 53 * 2 ^ s).
  { rewrite <- Z.pow_add_r by lia. f_equal. unfold s. lia. }
  assert (H53 : 2 ^ 53 = 2 ^ (53 - s) * 2 ^ s).
  { rewrite <- Z.pow_add_r by lia. f_equal. lia. }
  assert (Hps : 0 < 2 ^ s) by (apply Z.pow_pos_nonneg; lia).
  assert (Hpd : 0 < 2 ^ (53 - s)) by (apply Z.pow_pos_nonneg; lia).
  set (q := a / 2 ^ s).
  assert (Hq : 31 * 2 ^ (53 - s) <= q < 2 ^ 53).
  { unfold q. split.
    - apply Z.div_le_lower_bound; [lia|]. nia.
    - apply Z.div_lt_upper_bound; [lia|]. lia. }
  match goal with |- context [if ?c then q + 1 else q] =>
    set (q' := if c then q + 1 else q) end.
  assert (Hq' : q <= q' <= q + 1) by (unfold q'; case_match; lia).
  assert (Hsgn : Z.sgn a = 1) by (apply Z.sgn_pos; lia).
  rewrite Hsgn, Z.mul_1_l.
  unfold double_trunc; cbn [mant expo].
  destruct (Z.leb_spec 0 (0 + -53 + s)) as [?|_]; [lia|].
  replace (- (0 + -53 + s)) with (53 - s) by lia.
  rewrite Z.quot_div_nonneg by lia.
  split.
  - apply Z.div_le_lower_bound; lia.
  - apply Z.le_lt_trans with q'; [|lia].
    apply Z.div_le_upper_bound; [lia|]. nia.
Qed.

Lemma double_to_size_t_mul_large bits_per_key :
  45 <= bits_per_key <= INT_MAX ->
  31 <= double_to_size_t (double_mul (int_to_double bits_per_key) d0_69).
Proof.
  intros Hb. unfold double_to_size_t.
  pose proof (double_trunc_mul_large _ Hb) as [Hlo Hhi].
  destruct (Z.leb_spec 0 (double_trunc (double_mul (int_to_double bits_per_key) d0_69)));
    [|lia].
  destruct (Z.ltb_spec (double_trunc (double_mul (int_to_double bits_per_key) d0_69)) (2 ^ 64));
    [|lia].
  exact Hlo.
Qed.

(** Below 45 the computation is checked value by value. *)
Lemma k_small bits_per_key :
  -1 <= bits_per_key < 45 ->
  k_ (NewBloomFilterPolicy bits_per_key) = clamp_1_30 (69 * bits_per_key / 100).
Proof.
  intros Hb.
  assert (Hall : forallb (fun b => k_ (NewBloomFilterPolicy b) =?
                                   clamp_1_30 (69 * b / 100))
                         (seqZ (-1) 46) = true)
    by (vm_compute; reflexivity).
  rewrite forallb_forall in Hall.
  apply Z.eqb_eq, Hall, list_elem_of_In, elem_of_seqZ. lia.
Qed.

Lemma k_rational bits_per_key :
  -1 <= bits_per_key <= INT_MAX ->
  k_ (NewBloomFilterPolicy bits_per_key) = clamp_1_30 (69 * bits_per_key / 100).
Proof.
  intros Hb. destruct (Z.lt_ge_cases bits_per_key 45) as [Hlt|Hge].
  - apply k_small. lia.
  - rewrite k_clamp.
    pose proof (double_to_size_t_mul_large bits_per_key ltac:(lia)) as Hk.
    assert (31 <= 69 * bits_per_key / 100)
      by (apply Z.div_le_lower_bound; lia).
    unfold clamp_1_30. repeat case_match; lia.
Qed.

Lemma Zfloor_069 (b : Z) : Zfloor (IZR b * 69 / 100) = 69 * b / 100.
Proof.
  apply Zfloor_eq.
  pose proof (Z.div_mod (69 * b) 100 ltac:(lia)) as Hdm.
  pose proof (Z.mod_pos_bound (69 * b) 100 ltac:(lia)) as [Hr0 Hr1].
  apply (f_equal IZR) in Hdm.
  rewrite plus_IZR, !mult_IZR in Hdm.
  apply IZR_le in Hr0. apply IZR_lt in Hr1.
  lra.
Qed.

(** C4 -- probe-count invariant: whatever [bits_per_key] the caller gives
    (zero, negative, very large), the [k_] stored by the constructor
    satisfies [1 <= k_ <= 30]; [bits_per_key = 0] gives [k_ = 1] and
    [bits_per_key = 1000] gives [k_ = 30]. *)
Theorem probe_count_invariant :
  (forall bits_per_key, 1 <= k_ (NewBloomFilterPolicy bits_per_key) <= 30) /\
  k_ (NewBloomFilterPolicy 0) = 1 /\
  k_ (NewBloomFilterPolicy 1000) = 30.
Proof.
  split; [exact k_range|].
  split.
  - vm_compute. reflexivity.
  - rewrite k_rational by (unfold INT_MAX; lia). vm_compute. reflexivity.
Qed.

(** C3 (as amended) -- probe-count derivation: for every [int]
    [bits_per_key >= -1], the [k_] computed by the constructor is
    [floor (bits_per_key * 0.69)] clamped to the inclusive range [1, 30];
    the factor is the constant 0.69 of the code, not [ln 2]. *)
Theorem probe_count_derivation bits_per_key :
  -1 <= bits_per_key <= INT_MAX ->
  k_ (NewBloomFilterPolicy bits_per_key) =
  clamp_1_30 (Zfloor (IZR bits_per_key * 69 / 100)).
Proof.
  intros Hb. rewrite Zfloor_069. apply k_rational, Hb.
Qed.

(** ** Bytes and bits *)

Lemma char_to_int_testbit c j :
  0 <= j < 8 -> Z.testbit (char_to_int c) j = Z.testbit (byte.unsigned c) j.
Proof.
  intros Hj. unfold char_to_int.
  destruct (char_signed && (128 <=? byte.unsigned c)); [|reflexivity].
  rewrite <- (Z.mod_pow2_bits_low (byte.unsigned c - 256) 8 j) by lia.
  rewrite <- (Z.mod_pow2_bits_low (byte.unsigned c) 8 j) by lia.
  f_equal. change 256 with (1 * 2 ^ 8).
  rewrite <- Z.add_opp_r, <- Z.mul_opp_l. apply Z_mod_plus_full.
Qed.

Lemma unsigned_testbit_high c j : 8 <= j -> Z.testbit (byte.unsigned c) j = false.
Proof.
  intros Hj. rewrite <- (byte.wrap_unsigned c). unfold byte.wrap.
  apply Z.mod_pow2_bits_high. lia.
Qed.

Lemma testbit_or_bit m c j :
  0 <= m < 8 -> 0 <= j ->
  Z.testbit (byte.unsigned (or_bit m c)) j =
  Z.testbit (byte.unsigned c) j || (m =? j).
Proof.
  intros Hm Hj. unfold or_bit, int_to_char.
  rewrite byte.unsigned_of_Z. unfold byte.wrap.
  rewrite Z.shiftl_1_l.
  destruct (Z.lt_ge_cases j 8) as [Hlt|Hge].
  - rewrite Z.mod_pow2_bits_low by lia.
    rewrite Z.lor_spec, char_to_int_testbit by lia.
    rewrite Z.pow2_bits_eqb by lia. reflexivity.
  - rewrite Z.mod_pow2_bits_high by lia.
    rewrite unsigned_testbit_high by lia.
    symmetry. apply Z.eqb_neq. lia.
Qed.

Lemma or_bit_comm m1 m2 c :
  0 <= m1 < 8 -> 0 <= m2 < 8 ->
  or_bit m1 (or_bit m2 c) = or_bit m2 (or_bit m1 c).
Proof.
  intros H1 H2. apply byte.unsigned_inj, Z.bits_inj'. intros j Hj.
  rewrite !testbit_or_bit by lia.
  rewrite <- !orb_assoc. f_equal. apply orb_comm.
Qed.

(** The test [(array[i] & (1 << m)) == 0] reads bit [m] of the byte. *)
Lemma land_bit_eqb c m :
  0 <= m < 8 ->
  (Z.land (char_to_int c) (Z.shiftl 1 m) =? 0) = negb (Z.testbit (byte.unsigned c) m).
Proof.
  intros Hm. rewrite Z.shiftl_1_l.
  rewrite <- (char_to_int_testbit c m Hm).
  destruct (Z.testbit (char_to_int c) m) eqn:Hb; cbn [negb].
  - apply Z.eqb_neq. intros H0.
    apply (f_equal (fun z => Z.testbit z m)) in H0.
    rewrite Z.land_spec, Hb, Z.pow2_bits_true, Z.bits_0 in H0 by lia.
    discriminate.
  - apply Z.eqb_eq, Z.bits_inj'. intros j Hj.
    rewrite Z.land_spec, Z.bits_0, Z.pow2_bits_eqb by lia.
    destruct (Z.eqb_spec m j) as [->|_].
    + rewrite Hb. reflexivity.
    + apply andb_false_r.
Qed.

Lemma char_to_size_t_small k :
  0 <= k < 128 -> char_to_size_t (int_to_char k) = k.
Proof.
  intros Hk. unfold char_to_size_t, char_to_int, int_to_char.
  rewrite byte.unsigned_of_Z. unfold byte.wrap.
  rewrite (Z.mod_small k) by lia.
  destruct (Z.leb_spec 128 k); [lia|].
  rewrite andb_false_r. unfold wrap64. apply Z.mod_small. lia.
Qed.

Lemma char_to_size_t_reserved c :
  31 <= byte.unsigned c -> 30 < char_to_size_t c.
Proof.
  intros Hc. pose proof (byte.unsigned_range c) as Hr.
  unfold char_to_size_t, char_to_int, wrap64.
  destruct (char_signed && (128 <=? byte.unsigned c)) eqn:Hs.
  - apply andb_true_iff in Hs as [_ Hs%Z.leb_le].
    replace (byte.unsigned c - 256)
      with (byte.unsigned c + (2 ^ 64 - 256) + (-1) * 2 ^ 64) by lia.
    rewrite Z_mod_plus_full, Z.mod_small by lia. lia.
  - rewrite Z.mod_small by lia. lia.
Qed.

(** ** The builder as a fold of bit updates *)

Lemma set_bit_at_length base dst p : length (set_bit_at base dst p) = length dst.
Proof. apply length_alter. Qed.

Lemma set_bit_Some dst base p :
  (base + Z.to_nat (p / 8) < length dst)%nat ->
  set_bit dst base p = Some (set_bit_at base dst p).
Proof.
  intros Hi. unfold set_bit, set_bit_at.
  destruct (lookup_lt_is_Some_2 dst _ Hi) as [c Hc].
  rewrite Hc. cbn. f_equal.
  rewrite list_insert_alter. apply list_alter_ext; [|reflexivity].
  intros c' Hc'. rewrite Hc in Hc'. injection Hc' as <-. reflexivity.
Qed.

Lemma set_bit_None dst base p :
  (length dst <= base + Z.to_nat (p / 8))%nat -> set_bit dst base p = None.
Proof.
  intros Hi. unfold set_bit. rewrite (lookup_ge_None_2 dst _ Hi). reflexivity.
Qed.

Lemma set_bit_at_comm base dst p1 p2 :
  set_bit_at base (set_bit_at base dst p1) p2 =
  set_bit_at base (set_bit_at base dst p2) p1.
Proof.
  unfold set_bit_at.
  pose proof (Z.mod_pos_bound p1 8 ltac:(lia)).
  pose proof (Z.mod_pos_bound p2 8 ltac:(lia)).
  destruct (decide ((base + Z.to_nat (p2 / 8))%nat = (base + Z.to_nat (p1 / 8))%nat))
    as [->|Hne].
  - rewrite !list_alter_alter_eq. apply list_alter_ext; [|reflexivity].
    intros c _. cbn. apply or_bit_comm; assumption.
  - apply list_alter_alter_ne, Hne.
Qed.

Lemma foldl_set_bit_at_length base ps dst :
  length (foldl (set_bit_at base) dst ps) = length dst.
Proof.
  revert dst. induction ps as [|p ps IH]; intros dst; cbn; [reflexivity|].
  rewrite IH. apply set_bit_at_length.
Qed.

Lemma foldl_set_bit_at_perm base ps ps' dst :
  ps ≡ₚ ps' ->
  foldl (set_bit_at base) dst ps = foldl (set_bit_at base) dst ps'.
Proof.
  intros Hperm. revert dst.
  induction Hperm as [|p ps ps' _ IH|p1 p2 ps|ps1 ps2 ps3 _ IH1 _ IH2];
    intros dst; cbn.
  - reflexivity.
  - apply IH.
  - rewrite set_bit_at_comm. reflexivity.
  - rewrite IH1. apply IH2.
Qed.

Lemma probe_seq_range j bits h delta :
  0 < bits -> Forall (fun p => 0 <= p < bits) (probe_seq j bits h delta).
Proof.
  intros Hbits. revert h.
  induction j as [|j IH]; intros h; cbn; constructor; [|apply IH].
  pose proof (Z.mod_pos_bound h bits Hbits) as Hm.
  pose proof (Z.mod_pos_bound (h mod bits) (2 ^ 32) ltac:(lia)).
  pose proof (Z.mod_le (h mod bits) (2 ^ 32) ltac:(lia) ltac:(lia)).
  unfold wrap32. lia.
Qed.

Lemma probe_index_in_range bits nbytes p :
  bits <= 8 * Z.of_nat nbytes -> 0 <= p < bits ->
  (Z.to_nat (p / 8) < nbytes)%nat.
Proof.
  intros Hbits Hp.
  assert (0 <= p / 8) by (apply Z.div_pos; lia).
  assert (p / 8 < Z.of_nat nbytes) by (apply Z.div_lt_upper_bound; lia).
  lia.
Qed.

Lemma set_probes_Some nbytes j bits h delta base dst :
  0 < bits -> bits <= 8 * Z.of_nat nbytes ->
  (base + nbytes <= length dst)%nat ->
  set_probes j bits h delta base dst =
  Some (foldl (set_bit_at base) dst (probe_seq j bits h delta)).
Proof.
  intros Hbits Hle. revert h dst.
  induction j as [|j IH]; intros h dst Hlen; cbn; [reflexivity|].
  destruct (Z.eqb_spec bits 0) as [?|_]; [lia|].
  pose proof (probe_seq_range 1 bits h delta Hbits) as Hr.
  apply Forall_cons_1 in Hr as [Hr _].
  pose proof (probe_index_in_range _ _ _ Hle Hr).
  rewrite set_bit_Some by lia. cbn.
  apply IH. rewrite set_bit_at_length. exact Hlen.
Qed.

Lemma add_keys_Some nbytes keys k bits base dst :
  0 < bits -> bits <= 8 * Z.of_nat nbytes ->
  (base + nbytes <= length dst)%nat ->
  add_keys keys k bits base dst =
  Some (foldl (set_bit_at base) dst (keys ≫= key_probes k bits)).
Proof.
  intros Hbits Hle. revert dst.
  induction keys as [|key keys IH]; intros dst Hlen; cbn; [reflexivity|].
  rewrite (set_probes_Some nbytes) by assumption. cbn.
  rewrite foldl_app. apply IH.
  rewrite foldl_set_bit_at_length. exact Hlen.
Qed.

(** With a zero-length bit array the first probe divides by zero. *)
Lemma add_keys_zero_bits keys k base dst :
  add_keys keys k 0 base dst =
  match keys, Z.to_nat k with
  | [], _ | _, O => Some dst
  | _ :: _, S _ => None
  end.
Proof.
  destruct (Z.to_nat k) as [|j] eqn:Hk.
  - induction keys as [|key keys IH]; cbn; [reflexivity|].
    rewrite Hk. cbn. rewrite IH. destruct keys; reflexivity.
  - destruct keys as [|key keys]; cbn; [reflexivity|].
    rewrite Hk. reflexivity.
Qed.

Lemma filter_bytes_range p n : 0 <= filter_bytes p n < 2 ^ 61.
Proof.
  unfold filter_bytes.
  match goal with |- context [wrap64 ?x / 8] =>
    pose proof (Z.mod_pos_bound x (2 ^ 64) ltac:(lia)) as Hw;
    fold (wrap64 x) in Hw end.
  split.
  - apply Z.div_pos; lia.
  - apply Z.div_lt_upper_bound; lia.
Qed.

Lemma filter_bits_nowrap p n :
  wrap64 (filter_bytes p n * 8) = 8 * filter_bytes p n.
Proof.
  pose proof (filter_bytes_range p n). unfold wrap64.
  rewrite Z.mod_small; lia.
Qed.

Lemma fresh_filter_length p n dst :
  length (fresh_filter p n dst) =
  (length dst + Z.to_nat (filter_bytes p n) + 1)%nat.
Proof. unfold fresh_filter. rewrite !length_app, length_replicate. reflexivity. Qed.

Lemma CreateFilter_Some p keys dst :
  filter_bytes p (Z.of_nat (length keys)) <> 0 ->
  CreateFilter p keys dst =
  Some (foldl (set_bit_at (length dst))
              (fresh_filter p (Z.of_nat (length keys)) dst)
              (keys ≫= key_probes (k_ p) (8 * filter_bytes p (Z.of_nat (length keys))))).
Proof.
  intros Hnz. unfold CreateFilter.
  pose proof (filter_bytes_range p (Z.of_nat (length keys))) as Hr.
  rewrite filter_bits_nowrap.
  apply (add_keys_Some (Z.to_nat (filter_bytes p (Z.of_nat (length keys))))).
  - lia.
  - lia.
  - fold (fresh_filter p (Z.of_nat (length keys)) dst).
    rewrite fresh_filter_length. lia.
Qed.

Lemma CreateFilter_zero_bytes p keys dst :
  filter_bytes p (Z.of_nat (length keys)) = 0 ->
  CreateFilter p keys dst =
  match keys, Z.to_nat (k_ p) with
  | [], _ | _, O => Some (dst ++ [int_to_char (k_ p)])
  | _ :: _, S _ => None
  end.
Proof.
  intros Hz. unfold CreateFilter. rewrite Hz. cbn [Z.to_nat replicate].
  change (wrap64 (0 * 8)) with 0. rewrite add_keys_zero_bits, app_nil_r.
  reflexivity.
Qed.

Lemma set_bit_at_app base pre array post p :
  length pre = base -> (Z.to_nat (p / 8) < length array)%nat ->
  set_bit_at base (pre ++ array ++ post) p = pre ++ set_bit_at 0 array p ++ post.
Proof.
  intros <- Hi. unfold set_bit_at.
  rewrite alter_app_r. f_equal. apply alter_app_l. exact Hi.
Qed.

Lemma foldl_set_bit_at_app base pre array post ps :
  length pre = base ->
  Forall (fun p => (Z.to_nat (p / 8) < length array)%nat) ps ->
  foldl (set_bit_at base) (pre ++ array ++ post) ps =
  pre ++ foldl (set_bit_at 0) array ps ++ post.
Proof.
  intros Hpre Hps. revert array Hps.
  induction ps as [|p ps IH]; intros array Hps; cbn; [reflexivity|].
  apply Forall_cons_1 in Hps as [Hp Hps].
  rewrite set_bit_at_app by assumption. apply IH.
  eapply Forall_impl; [exact Hps|].
  intros q Hq. cbn beta. rewrite length_alter. exact Hq.
Qed.

Lemma bit_at_set_same array p :
  (Z.to_nat (p / 8) < length array)%nat ->
  bit_at 0 (set_bit_at 0 array p) p = true.
Proof.
  intros Hi. unfold bit_at, set_bit_at.
  destruct (lookup_lt_is_Some_2 array _ Hi) as [c Hc].
  pose proof (Z.mod_pos_bound p 8 ltac:(lia)).
  rewrite list_lookup_alter_eq. cbn in Hc |- *. rewrite Hc. cbn.
  rewrite testbit_or_bit, Z.eqb_refl by lia. apply orb_true_r.
Qed.

Lemma bit_at_set_mono array p q :
  bit_at 0 array q = true -> bit_at 0 (set_bit_at 0 array p) q = true.
Proof.
  unfold bit_at, set_bit_at. intros Hq.
  pose proof (Z.mod_pos_bound p 8 ltac:(lia)).
  pose proof (Z.mod_pos_bound q 8 ltac:(lia)).
  destruct (decide ((0 + Z.to_nat (p / 8))%nat = (0 + Z.to_nat (q / 8))%nat))
    as [Heq|Hne].
  - rewrite Heq, list_lookup_alter_eq.
    destruct (array !! (0 + Z.to_nat (q / 8))%nat) as [c|]; [|discriminate].
    cbn. rewrite testbit_or_bit, Hq by lia. reflexivity.
  - rewrite list_lookup_alter_ne by exact Hne. exact Hq.
Qed.

Lemma foldl_bit_at_mono ps array q :
  bit_at 0 array q = true -> bit_at 0 (foldl (set_bit_at 0) array ps) q = true.
Proof.
  revert array. induction ps as [|p ps IH]; intros array Hq; cbn; [exact Hq|].
  apply IH, bit_at_set_mono, Hq.
Qed.

(** Every position handed to the builder ends up set. *)
Lemma foldl_bit_at_set ps array q :
  Forall (fun p => (Z.to_nat (p / 8) < length array)%nat) ps ->
  q ∈ ps -> bit_at 0 (foldl (set_bit_at 0) array ps) q = true.
Proof.
  revert array. induction ps as [|p ps IH]; intros array Hps Hq.
  - inversion Hq.
  - apply Forall_cons_1 in Hps as [Hp Hps]. cbn.
    apply elem_of_cons in Hq as [->|Hq].
    + apply foldl_bit_at_mono, bit_at_set_same, Hp.
    + apply IH; [|exact Hq]. eapply Forall_impl; [exact Hps|].
      intros r Hr. cbn beta. rewrite length_alter. exact Hr.
Qed.

Lemma bit_at_app_l array post q :
  bit_at 0 array q = true -> bit_at 0 (array ++ post) q = true.
Proof.
  unfold bit_at. intros Hq.
  destruct (array !! (0 + Z.to_nat (q / 8))%nat) as [c|] eqn:Hc; [|discriminate].
  rewrite (lookup_app_l_Some _ _ _ _ Hc). exact Hq.
Qed.

(** ** The matcher on an array whose probed bits are set *)

Lemma test_probes_true j bits h delta array :
  bits <> 0 ->
  Forall (fun p => bit_at 0 array p = true) (probe_seq j bits h delta) ->
  test_probes j bits h delta array = Some true.
Proof.
  intros Hbits. revert h.
  induction j as [|j IH]; intros h Hall; cbn; [reflexivity|].
  cbn in Hall. apply Forall_cons_1 in Hall as [Hp Hall].
  destruct (Z.eqb_spec bits 0) as [?|_]; [contradiction|].
  unfold bit_at in Hp. cbn in Hp.
  destruct (array !! Z.to_nat (wrap32 (h mod bits) / 8)) as [c|]; [|discriminate].
  cbn. rewrite land_bit_eqb by (apply Z.mod_pos_bound; lia).
  rewrite Hp. cbn. apply IH, Hall.
Qed.

(** ** The output of [CreateFilter] *)

Lemma all_probes_range keys k bits :
  0 < bits -> Forall (fun p => 0 <= p < bits) (keys ≫= key_probes k bits).
Proof.
  intros Hbits. induction keys as [|key keys IH]; [constructor|].
  rewrite bind_cons. apply Forall_app. split; [|exact IH].
  apply probe_seq_range, Hbits.
Qed.

Lemma built_array_length p keys :
  length (built_array p keys) = Z.to_nat (filter_bytes p (Z.of_nat (length keys))).
Proof.
  unfold built_array. rewrite foldl_set_bit_at_length. apply length_replicate.
Qed.

Lemma CreateFilter_built p keys dst :
  filter_bytes p (Z.of_nat (length keys)) <> 0 ->
  CreateFilter p keys dst =
  Some (dst ++ built_array p keys ++ [int_to_char (k_ p)]).
Proof.
  intros Hnz. rewrite CreateFilter_Some by exact Hnz. f_equal.
  pose proof (filter_bytes_range p (Z.of_nat (length keys))) as Hr.
  unfold fresh_filter, built_array. rewrite <- app_assoc.
  apply foldl_set_bit_at_app; [reflexivity|].
  rewrite length_replicate.
  eapply Forall_impl; [apply all_probes_range; lia|].
  intros q Hq. cbn beta in Hq |- *.
  apply (probe_index_in_range (8 * filter_bytes p (Z.of_nat (length keys)))); lia.
Qed.

Lemma key_probes_set p keys key :
  filter_bytes p (Z.of_nat (length keys)) <> 0 ->
  key ∈ keys ->
  Forall (fun q => bit_at 0 (built_array p keys ++ [int_to_char (k_ p)]) q = true)
         (key_probes (k_ p) (8 * filter_bytes p (Z.of_nat (length keys))) key).
Proof.
  intros Hnz Hkey. apply Forall_forall. intros q Hq.
  pose proof (filter_bytes_range p (Z.of_nat (length keys))) as Hr.
  apply bit_at_app_l. unfold built_array. apply foldl_bit_at_set.
  - rewrite length_replicate.
    eapply Forall_impl; [apply all_probes_range; lia|].
    intros r Hr'. cbn beta in Hr' |- *.
    apply (probe_index_in_range (8 * filter_bytes p (Z.of_nat (length keys)))); lia.
  - apply list_elem_of_bind. exists key. split; assumption.
Qed.

(** A filter built from [keys] by a policy with [k_] in [0, 127] matches
    each of them, whatever policy does the matching. *)
Lemma KeyMayMatch_built p p' keys key :
  filter_bytes p (Z.of_nat (length keys)) <> 0 ->
  0 <= k_ p < 128 ->
  key ∈ keys ->
  KeyMayMatch p' key (built_array p keys ++ [int_to_char (k_ p)]) = Some true.
Proof.
  intros Hnz Hk Hkey.
  pose proof (filter_bytes_range p (Z.of_nat (length keys))) as Hr.
  pose proof (key_probes_set p keys key Hnz Hkey) as Hset.
  unfold KeyMayMatch.
  rewrite length_app, built_array_length. cbn [length].
  set (nb := filter_bytes p (Z.of_nat (length keys))) in *.
  replace (Z.of_nat (Z.to_nat nb + 1)) with (nb + 1) by lia.
  destruct (Z.ltb_spec (nb + 1) 2) as [?|_]; [lia|].
  replace (nb + 1 - 1) with nb by lia.
  rewrite list_lookup_middle by (rewrite built_array_length; reflexivity).
  cbn. rewrite char_to_size_t_small by exact Hk.
  destruct (Z.ltb_spec 30 (k_ p)) as [_|_]; [reflexivity|].
  replace (wrap64 (nb * 8)) with (8 * nb)
    by (unfold wrap64; rewrite Z.mod_small; lia).
  apply test_probes_true; [lia|]. exact Hset.
Qed.

(** C1 -- no false negatives: for every policy (any [bits_per_key]) and
    every key list, if [CreateFilter] turns the buffer [dst] into [out],
    then [out] is [dst] followed by a filter [f], and [KeyMayMatch]
    -- of any policy -- answers [true] on [f] for every key of the list. *)
Theorem no_false_negatives bits_per_key keys dst out p' key :
  CreateFilter (NewBloomFilterPolicy bits_per_key) keys dst = Some out ->
  key ∈ keys ->
  exists f, out = dst ++ f /\ KeyMayMatch p' key f = Some true.
Proof.
  intros Hcreate Hkey.
  pose proof (k_range bits_per_key) as Hk.
  set (p := NewBloomFilterPolicy bits_per_key) in *.
  destruct (decide (filter_bytes p (Z.of_nat (length keys)) = 0)) as [Hz|Hnz].
  - rewrite (CreateFilter_zero_bytes _ _ _ Hz) in Hcreate.
    destruct keys as [|key0 keys]; [inversion Hkey|].
    destruct (Z.to_nat (k_ p)) eqn:Hn; [lia|discriminate].
  - rewrite (CreateFilter_built _ _ _ Hnz) in Hcreate.
    injection Hcreate as <-.
    eexists. split; [reflexivity|].
    apply KeyMayMatch_built; [exact Hnz|lia|exact Hkey].
Qed.

(** C9 -- order independence: for every policy, [CreateFilter] applied to a
    permutation of the key list has the same outcome, byte for byte. *)
Theorem CreateFilter_order_independent p keys keys' dst :
  Permutation keys keys' ->
  CreateFilter p keys' dst = CreateFilter p keys dst.
Proof.
  intros Hperm. pose proof (Permutation_length Hperm) as Hlen.
  destruct (decide (filter_bytes p (Z.of_nat (length keys)) = 0)) as [Hz|Hnz].
  - rewrite !CreateFilter_zero_bytes by (rewrite <- ?Hlen; exact Hz).
    destruct keys as [|key keys].
    + apply Permutation.Permutation_nil in Hperm. subst keys'. reflexivity.
    + destruct keys' as [|key' keys']; [|reflexivity].
      symmetry in Hperm. apply Permutation.Permutation_nil in Hperm.
      discriminate.
  - rewrite !CreateFilter_built by (rewrite <- ?Hlen; exact Hnz).
    do 3 f_equal. unfold built_array. rewrite <- Hlen.
    apply foldl_set_bit_at_perm, bind_Permutation. symmetry. exact Hperm.
Qed.

(** C2 -- at [bits_per_key = -1] and one key the size computation wraps to
    a zero-length bit array and the first probe is a modulo by zero:
    [CreateFilter] has no defined result. *)
Theorem CreateFilter_modulo_by_zero key dst :
  CreateFilter (NewBloomFilterPolicy (-1)) [key] dst = None.
Proof.
  rewrite CreateFilter_zero_bytes by (vm_compute; reflexivity).
  reflexivity.
Qed.

(** C5 -- at [bits_per_key = -1] and one key the bit array computed by
    [CreateFilter] has 0 bytes, not the 8 bytes of the 64-bit minimum, and
    no filter is appended to the buffer. *)
Theorem CreateFilter_minimum_size_wraps key dst :
  filter_bytes (NewBloomFilterPolicy (-1)) 1 = 0 /\
  forall f, CreateFilter (NewBloomFilterPolicy (-1)) [key] dst <> Some (dst ++ f).
Proof.
  split; [vm_compute; reflexivity|].
  intros f. rewrite CreateFilter_zero_bytes by (vm_compute; reflexivity).
  discriminate.
Qed.

(** ** The matcher *)

Lemma KeyMayMatch_trailing p key bloom_filter c :
  (2 <= length bloom_filter)%nat -> last bloom_filter = Some c ->
  KeyMayMatch p key bloom_filter =
  if 30 <? char_to_size_t c then Some true
  else test_probes (Z.to_nat (char_to_size_t c))
         (wrap64 ((Z.of_nat (length bloom_filter) - 1) * 8))
         (BloomHash key) (rotate_right_17 (BloomHash key)) bloom_filter.
Proof.
  intros Hlen Hlast. unfold KeyMayMatch.
  destruct (Z.ltb_spec (Z.of_nat (length bloom_filter)) 2) as [?|_]; [lia|].
  rewrite last_lookup in Hlast.
  replace (Z.to_nat (Z.of_nat (length bloom_filter) - 1))
    with (pred (length bloom_filter)) by lia.
  rewrite Hlast. reflexivity.
Qed.

(** C6 -- malformed filter: on an encoded filter of length 0 or 1
    [KeyMayMatch] answers [false] for every key. *)
Theorem KeyMayMatch_malformed p key bloom_filter :
  (length bloom_filter < 2)%nat ->
  KeyMayMatch p key bloom_filter = Some false.
Proof.
  intros Hlen. unfold KeyMayMatch.
  destruct (Z.ltb_spec (Z.of_nat (length bloom_filter)) 2) as [_|?]; [reflexivity|lia].
Qed.

(** C7 -- reserved encoding: on an encoded filter of length at least 2
    whose trailing byte is 31 or higher, [KeyMayMatch] answers [true] for
    every key, whatever the bit array holds. *)
Theorem KeyMayMatch_reserved p key bloom_filter c :
  (2 <= length bloom_filter)%nat -> last bloom_filter = Some c ->
  31 <= byte.unsigned c ->
  KeyMayMatch p key bloom_filter = Some true.
Proof.
  intros Hlen Hlast Hc.
  rewrite (KeyMayMatch_trailing _ _ _ _ Hlen Hlast).
  pose proof (char_to_size_t_reserved c Hc).
  destruct (Z.ltb_spec 30 (char_to_size_t c)) as [_|?]; [reflexivity|lia].
Qed.

(** C10 -- zero probe count: on an encoded filter of length at least 2
    whose trailing byte is 0 the probe loop is vacuous and [KeyMayMatch]
    answers [true] for every key. *)
Theorem KeyMayMatch_zero_probes p key bloom_filter :
  (2 <= length bloom_filter)%nat -> last bloom_filter = Some Byte.x00 ->
  KeyMayMatch p key bloom_filter = Some true.
Proof.
  intros Hlen Hlast.
  rewrite (KeyMayMatch_trailing _ _ _ _ Hlen Hlast).
  change (char_to_size_t Byte.x00) with (wrap64 (char_to_int Byte.x00)).
  replace (char_to_int Byte.x00) with 0
    by (unfold char_to_int; destruct char_signed; reflexivity).
  reflexivity.
Qed.

(** C8 -- configuration independence: the answer of [KeyMayMatch] is the
    same under any two policies; it is a function of the key and of the
    filter bytes alone. *)
Theorem KeyMayMatch_policy_independent p1 p2 key bloom_filter :
  KeyMayMatch p1 key bloom_filter = KeyMayMatch p2 key bloom_filter.
Proof. reflexivity. Qed.

(** ** Where the two methods are defined

    [KeyMayMatch] has a result on every filter that fits in memory, and
    [CreateFilter] on every non-negative [bits_per_key], where its output
    has the documented layout. *)

Lemma test_probes_total j bits h delta array :
  0 < bits -> bits <= 8 * Z.of_nat (length array) ->
  is_Some (test_probes j bits h delta array).
Proof.
  intros Hbits Hle. revert h.
  induction j as [|j IH]; intros h; cbn; [eexists; reflexivity|].
  destruct (Z.eqb_spec bits 0) as [?|_]; [lia|].
  pose proof (probe_seq_range 1 bits h delta Hbits) as Hr.
  apply Forall_cons_1 in Hr as [Hr _].
  pose proof (probe_index_in_range _ _ _ Hle Hr) as Hi.
  destruct (lookup_lt_is_Some_2 array _ Hi) as [c ->]. cbn.
  destruct (Z.land _ _ =? 0); [eexists; reflexivity|apply IH].
Qed.

Lemma KeyMayMatch_total p key bloom_filter :
  Z.of_nat (length bloom_filter) <= 2 ^ 61 ->
  is_Some (KeyMayMatch p key bloom_filter).
Proof.
  intros Hlen. unfold KeyMayMatch.
  destruct (Z.ltb_spec (Z.of_nat (length bloom_filter)) 2) as [?|Hge];
    [eexists; reflexivity|].
  destruct (lookup_lt_is_Some_2 bloom_filter
              (Z.to_nat (Z.of_nat (length bloom_filter) - 1)) ltac:(lia)) as [c ->].
  cbn. destruct (30 <? char_to_size_t c); [eexists; reflexivity|].
  unfold wrap64. rewrite Z.mod_small by lia.
  apply test_probes_total; lia.
Qed.



(** ** Which bits the builder sets, exactly *)

Lemma bit_at_set_bit_at array p q :
  0 <= p -> 0 <= q -> (Z.to_nat (p / 8) < length array)%nat ->
  bit_at 0 (set_bit_at 0 array p) q = bit_at 0 array q || (p =? q).
Proof.
  intros Hp Hq Hi. unfold bit_at, set_bit_at. cbn [Nat.add].
  pose proof (Z.mod_pos_bound p 8 ltac:(lia)).
  pose proof (Z.mod_pos_bound q 8 ltac:(lia)).
  pose proof (Z.div_pos p 8 Hp ltac:(lia)).
  pose proof (Z.div_pos q 8 Hq ltac:(lia)).
  pose proof (Z.div_mod p 8 ltac:(lia)).
  pose proof (Z.div_mod q 8 ltac:(lia)).
  destruct (decide (Z.to_nat (p / 8) = Z.to_nat (q / 8))) as [Heq|Hne].
  - rewrite <- Heq, list_lookup_alter_eq.
    destruct (lookup_lt_is_Some_2 array _ Hi) as [c ->]. cbn.
    rewrite testbit_or_bit by lia. f_equal.
    destruct (Z.eqb_spec (p mod 8) (q mod 8)), (Z.eqb_spec p q); try reflexivity; lia.
  - rewrite list_lookup_alter_ne by exact Hne.
    destruct (Z.eqb_spec p q) as [->|_]; [contradiction|].
    symmetry. apply orb_false_r.
Qed.

Lemma bit_at_foldl array ps q :
  Forall (fun p => 0 <= p /\ (Z.to_nat (p / 8) < length array)%nat) ps ->
  0 <= q ->
  bit_at 0 (foldl (set_bit_at 0) array ps) q =
  bit_at 0 array q || bool_decide (q ∈ ps).
Proof.
  intros Hps Hq. revert array Hps.
  induction ps as [|p ps IH]; intros array Hps.
  - cbn [foldl]. rewrite bool_decide_eq_false_2 by (apply not_elem_of_nil).
    symmetry. apply orb_false_r.
  - apply Forall_cons_1 in Hps as [[Hp Hi] Hps]. cbn [foldl].
    rewrite IH.
    + rewrite bit_at_set_bit_at by assumption.
      rewrite <- orb_assoc. f_equal.
      destruct (Z.eqb_spec p q) as [->|Hne]; cbn [orb].
      * symmetry. apply bool_decide_eq_true_2, list_elem_of_here.
      * apply bool_decide_ext. rewrite elem_of_cons.
        split; [intros H; right; exact H|].
        intros [Heq|H]; [symmetry in Heq; contradiction|exact H].
    + eapply Forall_impl; [exact Hps|].
      intros r Hr. cbn beta in Hr |- *. rewrite set_bit_at_length. exact Hr.
Qed.

Lemma bit_at_replicate_zero n q : bit_at 0 (replicate n Byte.x00) q = false.
Proof.
  unfold bit_at.
  destruct (replicate n Byte.x00 !! (0 + Z.to_nat (q / 8))%nat) as [c|] eqn:Hc;
    [|reflexivity].
  apply lookup_replicate_1 in Hc as [-> _]. apply Z.testbit_0_l.
Qed.

Lemma all_probes_in_array p keys :
  filter_bytes p (Z.of_nat (length keys)) <> 0 ->
  Forall (fun q => 0 <= q /\
            (Z.to_nat (q / 8) <
             length (replicate (Z.to_nat (filter_bytes p (Z.of_nat (length keys)))) Byte.x00))%nat)
         (keys ≫= key_probes (k_ p) (8 * filter_bytes p (Z.of_nat (length keys)))).
Proof.
  intros Hnz.
  pose proof (filter_bytes_range p (Z.of_nat (length keys))) as Hr.
  rewrite length_replicate.
  eapply Forall_impl; [apply all_probes_range; lia|].
  intros q Hq. cbn beta in Hq |- *. split; [lia|].
  apply (probe_index_in_range (8 * filter_bytes p (Z.of_nat (length keys)))); lia.
Qed.

Lemma built_array_bit p keys q :
  filter_bytes p (Z.of_nat (length keys)) <> 0 -> 0 <= q ->
  bit_at 0 (built_array p keys) q =
  bool_decide (q ∈ keys ≫= key_probes (k_ p) (8 * filter_bytes p (Z.of_nat (length keys)))).
Proof.
  intros Hnz Hq. unfold built_array.
  rewrite bit_at_foldl by (apply all_probes_in_array, Hnz || exact Hq).
  rewrite bit_at_replicate_zero. reflexivity.
Qed.

(** Two byte arrays of one length with the same bits are equal. *)
Lemma bit_at_ext (a b : list byte) :
  length a = length b ->
  (forall q, 0 <= q -> bit_at 0 a q = bit_at 0 b q) ->
  a = b.
Proof.
  intros Hlen Hbits. apply list_eq. intros i.
  destruct (decide (i < length a)%nat) as [Hi|Hi].
  - destruct (lookup_lt_is_Some_2 a i Hi) as [ca Hca].
    destruct (lookup_lt_is_Some_2 b i ltac:(lia)) as [cb Hcb].
    rewrite Hca, Hcb. f_equal.
    apply byte.unsigned_inj, Z.bits_inj'. intros j Hj.
    destruct (Z.lt_ge_cases j 8) as [Hlt|Hge].
    + specialize (Hbits (8 * Z.of_nat i + j) ltac:(lia)).
      unfold bit_at in Hbits. cbn [Nat.add] in Hbits.
      replace ((8 * Z.of_nat i + j) / 8) with (Z.of_nat i) in Hbits
        by (apply (Z.div_unique _ 8 _ j); lia).
      replace ((8 * Z.of_nat i + j) mod 8) with j in Hbits
        by (apply (Z.mod_unique _ 8 (Z.of_nat i) j); lia).
      rewrite Nat2Z.id, Hca, Hcb in Hbits. exact Hbits.
    + rewrite !unsigned_testbit_high by lia. reflexivity.
  - rewrite (lookup_ge_None_2 a i), (lookup_ge_None_2 b i) by lia. reflexivity.
Qed.

(** ** The matcher as a conjunction of bit tests *)

Lemma test_probes_forallb j bits h delta array :
  0 < bits -> bits <= 8 * Z.of_nat (length array) ->
  test_probes j bits h delta array =
  Some (forallb (bit_at 0 array) (probe_seq j bits h delta)).
Proof.
  intros Hbits Hle. revert h.
  induction j as [|j IH]; intros h; cbn [test_probes probe_seq forallb];
    [reflexivity|].
  destruct (Z.eqb_spec bits 0) as [?|_]; [lia|].
  pose proof (probe_seq_range 1 bits h delta Hbits) as Hr.
  apply Forall_cons_1 in Hr as [Hr _].
  pose proof (probe_index_in_range _ _ _ Hle Hr) as Hi.
  unfold bit_at at 1. cbn [Nat.add].
  destruct (lookup_lt_is_Some_2 array _ Hi) as [c ->]. cbn.
  rewrite land_bit_eqb by (apply Z.mod_pos_bound; lia).
  destruct (Z.testbit (byte.unsigned c) (wrap32 (h mod bits) mod 8)); cbn.
  - apply IH.
  - reflexivity.
Qed.

(** ** The size computation, case by case *)

Lemma filter_bytes_cases p n :
  (filter_bytes p n = 0 /\ 2 ^ 64 - 7 <= wrap64 (n * bits_per_key_ p)) \/
  (8 <= filter_bytes p n /\ wrap64 (n * bits_per_key_ p) < 2 ^ 64 - 7 /\
   filter_bytes p n = (Z.max (wrap64 (n * bits_per_key_ p)) 64 + 7) / 8).
Proof.
  unfold filter_bytes.
  set (b0 := wrap64 (n * bits_per_key_ p)).
  assert (Hb0 : 0 <= b0 < 2 ^ 64) by (apply Z.mod_pos_bound; lia).
  destruct (Z.ltb_spec b0 64) as [Hlt|Hge].
  - right. rewrite Z.max_r by lia.
    change (wrap64 (64 + 7) / 8) with 8. change ((64 + 7) / 8) with 8. lia.
  - destruct (Z.lt_ge_cases b0 (2 ^ 64 - 7)) as [Hsmall|Hbig].
    + right. rewrite Z.max_l by lia. unfold wrap64.
      rewrite (Z.mod_small (b0 + 7)) by lia.
      repeat split; [|lia].
      apply Z.div_le_lower_bound; lia.
    + left. split; [|lia]. unfold wrap64.
      replace (b0 + 7) with (b0 + 7 - 2 ^ 64 + 1 * 2 ^ 64) by lia.
      rewrite Z_mod_plus_full, Z.mod_small by lia.
      apply Z.div_small. lia.
Qed.

Lemma filter_bytes_no_keys p : filter_bytes p 0 = 8.
Proof. unfold filter_bytes. rewrite Z.mul_0_l. reflexivity. Qed.

Lemma bit_at_app_r pre l q : bit_at (length pre) (pre ++ l) q = bit_at 0 l q.
Proof.
  unfold bit_at. rewrite lookup_app_r by lia.
  replace (length pre + Z.to_nat (q / 8) - length pre)%nat
    with (0 + Z.to_nat (q / 8))%nat by lia.
  reflexivity.
Qed.

Lemma bit_at_app_l_eq array post q :
  (Z.to_nat (q / 8) < length array)%nat ->
  bit_at 0 (array ++ post) q = bit_at 0 array q.
Proof.
  intros Hi. unfold bit_at. cbn [Nat.add]. rewrite lookup_app_l by exact Hi.
  reflexivity.
Qed.

(** X1 -- append only: whenever [CreateFilter] returns, the bytes already
    in [dst] are unchanged and what follows them is a bit array of
    [filter_bytes] bytes, at least 8, and one byte holding [k_]. *)
Theorem CreateFilter_appends bits_per_key keys dst out :
  CreateFilter (NewBloomFilterPolicy bits_per_key) keys dst = Some out ->
  exists array,
    out = dst ++ array ++ [int_to_char (k_ (NewBloomFilterPolicy bits_per_key))] /\
    Z.of_nat (length array) =
      filter_bytes (NewBloomFilterPolicy bits_per_key) (Z.of_nat (length keys)) /\
    (8 <= length array)%nat.
Proof.
  intros Hcreate.
  pose proof (k_range bits_per_key) as Hk.
  set (p := NewBloomFilterPolicy bits_per_key) in *.
  destruct (filter_bytes_cases p (Z.of_nat (length keys)))
    as [[Hz _]|[Hge _]].
  - rewrite (CreateFilter_zero_bytes _ _ _ Hz) in Hcreate.
    destruct keys as [|key keys].
    + rewrite filter_bytes_no_keys in Hz. discriminate.
    + destruct (Z.to_nat (k_ p)) eqn:Hn; [lia|discriminate].
  - rewrite CreateFilter_built in Hcreate by lia. injection Hcreate as <-.
    exists (built_array p keys). rewrite built_array_length.
    split; [reflexivity|]. lia.
Qed.



(** X4 -- no keys: for every [bits_per_key], negative ones included,
    [CreateFilter] on an empty key list appends eight zero bytes and the
    [k_] byte, and [KeyMayMatch] answers [false] on that filter for every
    key. *)
Theorem CreateFilter_no_keys bits_per_key dst p' key :
  CreateFilter (NewBloomFilterPolicy bits_per_key) [] dst =
    Some (dst ++ replicate 8 Byte.x00 ++
          [int_to_char (k_ (NewBloomFilterPolicy bits_per_key))]) /\
  KeyMayMatch p' key
    (replicate 8 Byte.x00 ++ [int_to_char (k_ (NewBloomFilterPolicy bits_per_key))]) =
    Some false.
Proof.
  pose proof (k_range bits_per_key) as Hk.
  set (p := NewBloomFilterPolicy bits_per_key) in *.
  split.
  - rewrite CreateFilter_built
      by (cbn [length Z.of_nat]; rewrite filter_bytes_no_keys; discriminate).
    unfold built_array. cbn [length Z.of_nat]. rewrite filter_bytes_no_keys.
    reflexivity.
  - rewrite (KeyMayMatch_trailing _ _ _ (int_to_char (k_ p)));
      [|cbn; lia|reflexivity].
    rewrite char_to_size_t_small by lia.
    destruct (Z.ltb_spec 30 (k_ p)) as [?|_]; [lia|].
    change (wrap64 _) with 64.
    rewrite test_probes_forallb by (cbn; lia). f_equal.
    destruct (Z.to_nat (k_ p)) as [|j] eqn:Hn; [lia|].
    cbn [probe_seq forallb].
    pose proof (probe_seq_range 1 64 (BloomHash key)
                  (rotate_right_17 (BloomHash key)) ltac:(lia)) as Hr.
    apply Forall_cons_1 in Hr as [Hr _].
    rewrite bit_at_app_l_eq
      by (rewrite length_replicate; apply (probe_index_in_range 64); cbn; lia).
    rewrite bit_at_replicate_zero. reflexivity.
Qed.

(** X5 -- what [CreateFilter] appends does not depend on what the buffer
    already holds: its outcome on [dst] is its outcome on the empty string
    with [dst] in front. *)
Theorem CreateFilter_buffer_independent p keys dst :
  CreateFilter p keys dst = (fun f => dst ++ f) <$> CreateFilter p keys [].
Proof.
  destruct (decide (filter_bytes p (Z.of_nat (length keys)) = 0)) as [Hz|Hnz].
  - rewrite !(CreateFilter_zero_bytes _ _ _ Hz).
    destruct keys, (Z.to_nat (k_ p)); reflexivity.
  - rewrite !(CreateFilter_built _ _ _ Hnz). reflexivity.
Qed.

Lemma probe_seq_lookup n bits h delta j :
  0 < bits -> 0 <= h < 2 ^ 32 -> (j < n)%nat ->
  probe_seq n bits h delta !! j =
  Some (wrap32 (h + Z.of_nat j * delta) mod bits).
Proof.
  intros Hbits. revert h j.
  induction n as [|n IH]; intros h j Hh Hj; [lia|].
  cbn [probe_seq]. destruct j as [|j]; cbn [lookup list_lookup].
  - f_equal. cbn [Z.of_nat]. rewrite Z.mul_0_l, Z.add_0_r.
    replace (wrap32 h) with h by (unfold wrap32; rewrite Z.mod_small; lia).
    pose proof (Z.mod_pos_bound h bits Hbits).
    pose proof (Z.mod_le h bits ltac:(lia) Hbits).
    unfold wrap32. apply Z.mod_small. lia.
  - rewrite IH; [|apply Z.mod_pos_bound; lia|lia].
    do 2 f_equal. unfold wrap32.
    rewrite Zplus_mod_idemp_l. f_equal. lia.
Qed.

Lemma probe_seq_length j bits h delta : length (probe_seq j bits h delta) = j.
Proof.
  revert h. induction j as [|j IH]; intros h; cbn; [reflexivity|].
  rewrite IH. reflexivity.
Qed.

(** The probe positions of a key are the [probe_position]s of the rounds
    [0 .. k-1]. *)
Lemma elem_of_key_probes k bits key q :
  0 < bits ->
  q ∈ key_probes k bits key <->
  exists j, 0 <= j < k /\ q = probe_position bits key j.
Proof.
  intros Hbits. unfold key_probes, probe_position.
  assert (Hh : 0 <= BloomHash key < 2 ^ 32) by (apply Z.mod_pos_bound; lia).
  rewrite list_elem_of_lookup. split.
  - intros [i Hi].
    pose proof (lookup_lt_Some _ _ _ Hi) as Hlt.
    rewrite probe_seq_length in Hlt.
    rewrite probe_seq_lookup in Hi by assumption.
    injection Hi as <-. exists (Z.of_nat i). split; [lia|reflexivity].
  - intros (j & Hj & ->). exists (Z.to_nat j).
    rewrite probe_seq_lookup by (assumption || lia).
    rewrite Z2Nat.id by lia. reflexivity.
Qed.

Lemma forallb_agree {A} (f g : A -> bool) (l : list A) :
  (forall x, In x l -> f x = g x) -> forallb f l = forallb g l.
Proof.
  induction l as [|x l IH]; intros Hfg; cbn; [reflexivity|].
  rewrite (Hfg x) by (left; reflexivity).
  rewrite IH by (intros y Hy; apply Hfg; right; exact Hy).
  reflexivity.
Qed.

Lemma KeyMayMatch_built_forallb p p' keys key :
  filter_bytes p (Z.of_nat (length keys)) <> 0 ->
  0 <= k_ p <= 30 ->
  KeyMayMatch p' key (built_array p keys ++ [int_to_char (k_ p)]) =
  Some (forallb (bit_at 0 (built_array p keys))
          (key_probes (k_ p) (8 * filter_bytes p (Z.of_nat (length keys))) key)).
Proof.
  intros Hnz Hk.
  pose proof (filter_bytes_range p (Z.of_nat (length keys))) as Hr.
  rewrite (KeyMayMatch_trailing _ _ _ (int_to_char (k_ p)));
    [|rewrite length_app, built_array_length; cbn [length]; lia
     |rewrite last_snoc; reflexivity].
  rewrite char_to_size_t_small by lia.
  destruct (Z.ltb_spec 30 (k_ p)) as [?|_]; [lia|].
  rewrite length_app, built_array_length. cbn [length].
  set (nb := filter_bytes p (Z.of_nat (length keys))) in *.
  replace (wrap64 ((Z.of_nat (Z.to_nat nb + 1) - 1) * 8)) with (8 * nb)
    by (unfold wrap64; rewrite Z.mod_small; lia).
  rewrite test_probes_forallb
    by (rewrite ?length_app, ?built_array_length; cbn [length]; lia).
  f_equal. apply forallb_agree. intros q Hq.
  apply bit_at_app_l_eq. rewrite built_array_length.
  pose proof (probe_seq_range (Z.to_nat (k_ p)) (8 * nb) (BloomHash key)
                (rotate_right_17 (BloomHash key)) ltac:(lia)) as Hrange.
  rewrite Forall_forall in Hrange.
  apply (probe_index_in_range (8 * nb)); [lia|].
  apply Hrange, list_elem_of_In, Hq.
Qed.

(** X6 -- the builder sets the probed bits and no other: in the filter
    that [CreateFilter] appends, a bit of the bit array is set exactly
    when it is the position probed in one of the [k_] rounds for one of
    the keys. *)
Theorem CreateFilter_sets_exactly bits_per_key keys dst out q :
  CreateFilter (NewBloomFilterPolicy bits_per_key) keys dst = Some out ->
  0 <= q < 8 * filter_bytes (NewBloomFilterPolicy bits_per_key) (Z.of_nat (length keys)) ->
  bit_at (length dst) out q = true <->
  exists key j,
    key ∈ keys /\ 0 <= j < k_ (NewBloomFilterPolicy bits_per_key) /\
    q = probe_position
          (8 * filter_bytes (NewBloomFilterPolicy bits_per_key) (Z.of_nat (length keys)))
          key j.
Proof.
  intros Hcreate Hq.
  set (p := NewBloomFilterPolicy bits_per_key) in *.
  assert (Hnz : filter_bytes p (Z.of_nat (length keys)) <> 0) by lia.
  rewrite (CreateFilter_built _ _ _ Hnz) in Hcreate. injection Hcreate as <-.
  rewrite bit_at_app_r.
  rewrite bit_at_app_l_eq
    by (rewrite built_array_length;
        apply (probe_index_in_range
                 (8 * filter_bytes p (Z.of_nat (length keys)))); lia).
  rewrite built_array_bit by (assumption || lia).
  rewrite bool_decide_eq_true, list_elem_of_bind.
  split.
  - intros (key & H1 & H2). apply elem_of_key_probes in H1 as (j & Hj & ->); [|lia].
    exists key, j. repeat split; (assumption || lia).
  - intros (key & j & H1 & Hj & ->). exists key. split; [|exact H1].
    apply elem_of_key_probes; [lia|]. exists j. split; [exact Hj|reflexivity].
Qed.

(** X7 -- the answer on a built filter: on the filter that
    [CreateFilter] appends, [KeyMayMatch] of any policy always has an
    answer, and the answer is [true] exactly when every position probed
    for the queried key is a position probed for one of the keys of the
    list. *)
Theorem KeyMayMatch_built_iff bits_per_key keys dst out p' key :
  CreateFilter (NewBloomFilterPolicy bits_per_key) keys dst = Some out ->
  exists f b,
    out = dst ++ f /\ KeyMayMatch p' key f = Some b /\
    (b = true <->
     forall j, 0 <= j < k_ (NewBloomFilterPolicy bits_per_key) ->
       exists key' j',
         key' ∈ keys /\ 0 <= j' < k_ (NewBloomFilterPolicy bits_per_key) /\
         probe_position
           (8 * filter_bytes (NewBloomFilterPolicy bits_per_key) (Z.of_nat (length keys)))
           key j =
         probe_position
           (8 * filter_bytes (NewBloomFilterPolicy bits_per_key) (Z.of_nat (length keys)))
           key' j').
Proof.
  intros Hcreate.
  pose proof (k_range bits_per_key) as Hk.
  set (p := NewBloomFilterPolicy bits_per_key) in *.
  pose proof (filter_bytes_range p (Z.of_nat (length keys))) as Hr.
  destruct (decide (filter_bytes p (Z.of_nat (length keys)) = 0)) as [Hz|Hnz].
  { rewrite (CreateFilter_zero_bytes _ _ _ Hz) in Hcreate.
    destruct keys as [|key0 keys];
      [rewrite filter_bytes_no_keys in Hz; discriminate|].
    destruct (Z.to_nat (k_ p)) eqn:Hn; [lia|discriminate]. }
  rewrite (CreateFilter_built _ _ _ Hnz) in Hcreate. injection Hcreate as <-.
  set (bits := 8 * filter_bytes p (Z.of_nat (length keys))) in *.
  assert (Hbits : 0 < bits) by (unfold bits; lia).
  eexists. eexists. split; [reflexivity|].
  split; [apply KeyMayMatch_built_forallb; [exact Hnz|lia]|].
  fold bits. rewrite forallb_forall.
  pose proof (probe_seq_range (Z.to_nat (k_ p)) bits (BloomHash key)
                (rotate_right_17 (BloomHash key)) Hbits) as Hrange.
  rewrite Forall_forall in Hrange.
  split.
  - intros Hall j Hj.
    assert (Hin : probe_position bits key j ∈ key_probes (k_ p) bits key)
      by (apply elem_of_key_probes; [exact Hbits|]; exists j; split; [exact Hj|reflexivity]).
    specialize (Hall _ (proj1 (list_elem_of_In _ _) Hin)).
    rewrite built_array_bit in Hall by (exact Hnz || apply Hrange, Hin).
    apply bool_decide_eq_true in Hall. fold bits in Hall.
    apply list_elem_of_bind in Hall as (key' & H1 & H2).
    apply elem_of_key_probes in H1 as (j' & Hj' & Heq); [|exact Hbits].
    exists key', j'. repeat split; (assumption || lia).
  - intros Hall q Hq. apply list_elem_of_In in Hq.
    rewrite built_array_bit by (exact Hnz || apply Hrange, Hq).
    apply bool_decide_eq_true, list_elem_of_bind. fold bits.
    apply elem_of_key_probes in Hq as (j & Hj & ->); [|exact Hbits].
    destruct (Hall j Hj) as (key' & j' & H1 & Hj' & Heq).
    exists key'. split; [|exact H1].
    apply elem_of_key_probes; [exact Hbits|]. exists j'. split; [exact Hj'|exact Heq].
Qed.

(** X8 -- duplicates and order do not matter: two key lists of the same
    length with the same members give the same outcome of
    [CreateFilter]. *)
Theorem CreateFilter_same_members p keys keys' dst :
  length keys = length keys' ->
  (forall key, key ∈ keys <-> key ∈ keys') ->
  CreateFilter p keys dst = CreateFilter p keys' dst.
Proof.
  intros Hlen Hmem.
  destruct (decide (filter_bytes p (Z.of_nat (length keys)) = 0)) as [Hz|Hnz].
  - rewrite !CreateFilter_zero_bytes by (rewrite <- ?Hlen; exact Hz).
    destruct keys, keys'; try discriminate; reflexivity.
  - rewrite !CreateFilter_built by (rewrite <- ?Hlen; exact Hnz).
    do 3 f_equal. apply bit_at_ext.
    + rewrite !built_array_length, Hlen. reflexivity.
    + intros q Hq.
      rewrite !built_array_bit by (rewrite <- ?Hlen; assumption).
      rewrite <- Hlen. apply bool_decide_ext.
      rewrite !list_elem_of_bind.
      split; intros (key & H1 & H2); exists key; split;
        try assumption; apply Hmem; assumption.
Qed.

(** ** More on the matcher *)

(** X9 -- [KeyMayMatch] is defined on every filter of at most [2^61]
    bytes: the divisor of its modulo is never zero and every byte it reads
    lies inside the filter. *)
Theorem KeyMayMatch_defined p key bloom_filter :
  Z.of_nat (length bloom_filter) <= 2 ^ 61 ->
  exists b, KeyMayMatch p key bloom_filter = Some b.
Proof.
  intros Hlen. destruct (KeyMayMatch_total p key bloom_filter Hlen) as [b Hb].
  exists b. exact Hb.
Qed.

(** X10 -- the meaning of the answer: on a filter of at least 2 bytes whose
    trailing byte encodes a probe count [k <= 30], [KeyMayMatch] answers
    [true] exactly when, in each of the rounds [0 .. k-1], the bit at
    position [((h + j * delta) mod 2^32) mod bits] of the bit array is set,
    and [false] otherwise. *)
Theorem KeyMayMatch_all_probes p key bloom_filter c :
  (2 <= length bloom_filter)%nat ->
  Z.of_nat (length bloom_filter) <= 2 ^ 61 ->
  last bloom_filter = Some c ->
  char_to_size_t c <= 30 ->
  exists b,
    KeyMayMatch p key bloom_filter = Some b /\
    (b = true <->
     forall j, 0 <= j < char_to_size_t c ->
       bit_at 0 bloom_filter
         (probe_position (8 * (Z.of_nat (length bloom_filter) - 1)) key j) = true).
Proof.
  intros Hlen Hmax Hlast Hk.
  rewrite (KeyMayMatch_trailing _ _ _ _ Hlen Hlast).
  destruct (Z.ltb_spec 30 (char_to_size_t c)) as [?|_]; [lia|].
  replace (wrap64 ((Z.of_nat (length bloom_filter) - 1) * 8))
    with (8 * (Z.of_nat (length bloom_filter) - 1))
    by (unfold wrap64; rewrite Z.mod_small; lia).
  rewrite test_probes_forallb by lia.
  eexists. split; [reflexivity|].
  rewrite forallb_forall.
  fold (key_probes (char_to_size_t c) (8 * (Z.of_nat (length bloom_filter) - 1)) key).
  split.
  - intros Hall j Hj. apply Hall, list_elem_of_In, elem_of_key_probes; [lia|].
    exists j. split; [exact Hj|reflexivity].
  - intros Hall q Hq. apply list_elem_of_In in Hq.
    apply elem_of_key_probes in Hq as (j & Hj & ->); [|lia].
    apply Hall, Hj.
Qed.

Lemma test_probes_more_bits j bits h delta (f f' : list byte) :
  (forall q, 0 <= q -> bit_at 0 f q = true -> bit_at 0 f' q = true) ->
  test_probes j bits h delta f = Some true ->
  test_probes j bits h delta f' = Some true.
Proof.
  intros Hsub. revert h.
  induction j as [|j IH]; intros h; cbn [test_probes]; [reflexivity|].
  destruct (Z.eqb_spec bits 0) as [?|Hbits]; [discriminate|].
  set (q := wrap32 (h mod bits)).
  assert (Hq : 0 <= q) by (apply Z.mod_pos_bound; lia).
  pose proof (Z.mod_pos_bound q 8 ltac:(lia)) as Hq8.
  specialize (Hsub q Hq). unfold bit_at in Hsub. cbn [Nat.add] in Hsub.
  destruct (f !! Z.to_nat (q / 8)) as [c|]; [|discriminate]. cbn.
  rewrite land_bit_eqb by exact Hq8.
  destruct (Z.testbit (byte.unsigned c) (q mod 8)); [|discriminate].
  cbn. intros Hrest. specialize (Hsub eq_refl).
  destruct (f' !! Z.to_nat (q / 8)) as [c'|]; [|discriminate]. cbn.
  rewrite land_bit_eqb, Hsub by exact Hq8. cbn.
  apply IH, Hrest.
Qed.

(** X11 -- setting more bits never loses a match: if a filter has the same
    length and trailing byte as another one and every bit set in that one,
    then every key the other one matches is matched. *)
Theorem KeyMayMatch_more_bits p key (f f' : list byte) :
  length f = length f' -> last f = last f' ->
  (forall q, 0 <= q -> bit_at 0 f q = true -> bit_at 0 f' q = true) ->
  KeyMayMatch p key f = Some true ->
  KeyMayMatch p key f' = Some true.
Proof.
  intros Hlen Hlast Hsub. unfold KeyMayMatch. rewrite <- Hlen.
  destruct (Z.ltb_spec (Z.of_nat (length f)) 2) as [?|Hge]; [discriminate|].
  rewrite !last_lookup in Hlast. rewrite <- Hlen in Hlast.
  replace (Z.to_nat (Z.of_nat (length f) - 1)) with (pred (length f)) by lia.
  rewrite <- Hlast.
  destruct (f !! pred (length f)) as [c|]; [|discriminate]. cbn.
  destruct (30 <? char_to_size_t c); [reflexivity|].
  apply test_probes_more_bits, Hsub.
Qed.

(** ** The hash sequence *)

Lemma testbit_above_32 h i : 0 <= h < 2 ^ 32 -> 32 <= i -> Z.testbit h i = false.
Proof.
  intros Hh Hi. rewrite <- (Z.mod_small h (2 ^ 32)) by exact Hh.
  apply Z.mod_pow2_bits_high. lia.
Qed.

(** X12 -- [delta] is the hash rotated right by 17 bits: for a 32-bit
    [h], bit [i] of [(h >> 17) | (h << 15)] is bit [(i + 17) mod 32] of
    [h], and the result is again a 32-bit value. *)
Theorem rotate_right_17_bits h i :
  0 <= h < 2 ^ 32 -> 0 <= i < 32 ->
  Z.testbit (rotate_right_17 h) i = Z.testbit h ((i + 17) mod 32) /\
  0 <= rotate_right_17 h < 2 ^ 32.
Proof.
  intros Hh Hi. split.
  - unfold rotate_right_17, wrap32.
    rewrite Z.lor_spec, Z.shiftr_spec, Z.mod_pow2_bits_low, Z.shiftl_spec by lia.
    destruct (Z.lt_ge_cases i 15) as [Hlt|Hge].
    + rewrite (Z.testbit_neg_r h (i - 15)) by lia.
      rewrite Z.mod_small by lia. apply orb_false_r.
    + rewrite (testbit_above_32 h (i + 17)) by lia.
      replace ((i + 17) mod 32) with (i - 15)
        by (apply (Z.mod_unique _ 32 1); lia).
      reflexivity.
  - assert (Hmod : rotate_right_17 h = rotate_right_17 h mod 2 ^ 32).
    { apply Z.bits_inj'. intros j Hj.
      destruct (Z.lt_ge_cases j 32) as [Hlt|Hge].
      - rewrite Z.mod_pow2_bits_low by lia. reflexivity.
      - rewrite Z.mod_pow2_bits_high by lia.
        unfold rotate_right_17, wrap32.
        rewrite Z.lor_spec, Z.shiftr_spec, Z.mod_pow2_bits_high by lia.
        rewrite (testbit_above_32 h (j + 17)) by lia. reflexivity. }
    rewrite Hmod. apply Z.mod_pos_bound. lia.
Qed.

(** ** More on the probe count *)

(** X13 -- the probe count never decreases when [bits_per_key] grows. *)
Theorem probe_count_monotone b1 b2 :
  -1 <= b1 -> b1 <= b2 -> b2 <= INT_MAX ->
  k_ (NewBloomFilterPolicy b1) <= k_ (NewBloomFilterPolicy b2).
Proof.
  intros H1 H12 H2. rewrite !k_rational by lia.
  assert (69 * b1 / 100 <= 69 * b2 / 100) by (apply Z.div_le_mono; lia).
  unfold clamp_1_30. repeat case_match; lia.
Qed.

(** X14 -- where the clamping acts: for an [int] [bits_per_key >= -1] the
    probe count is 1 exactly up to [bits_per_key = 2] and 30 exactly from
    [bits_per_key = 44] on. *)
Theorem probe_count_extremes bits_per_key :
  -1 <= bits_per_key <= INT_MAX ->
  (k_ (NewBloomFilterPolicy bits_per_key) = 1 <-> bits_per_key <= 2) /\
  (k_ (NewBloomFilterPolicy bits_per_key) = 30 <-> 44 <= bits_per_key).
Proof.
  intros Hb. rewrite k_rational by exact Hb.
  destruct (Z.le_gt_cases bits_per_key 2) as [H2|H2];
  destruct (Z.le_gt_cases 44 bits_per_key) as [H44|H44]; try lia.
  - assert (69 * bits_per_key / 100 < 2) by (apply Z.div_lt_upper_bound; lia).
    unfold clamp_1_30. repeat case_match; lia.
  - assert (30 <= 69 * bits_per_key / 100) by (apply Z.div_le_lower_bound; lia).
    unfold clamp_1_30. repeat case_match; lia.
  - assert (2 <= 69 * bits_per_key / 100) by (apply Z.div_le_lower_bound; lia).
    assert (69 * bits_per_key / 100 < 30) by (apply Z.div_lt_upper_bound; lia).
    unfold clamp_1_30. repeat case_match; lia.
Qed.

(** ** How full a filter can be *)

Lemma all_probes_length keys k bits :
  length (keys ≫= key_probes k bits) = (length keys * Z.to_nat k)%nat.
Proof.
  induction keys as [|key keys IH]; [reflexivity|].
  rewrite bind_cons, length_app, IH. unfold key_probes.
  rewrite probe_seq_length. cbn [length]. lia.
Qed.

(** X15 -- a filter is never fuller than its probes allow: in the filter
    that [CreateFilter] appends for [n] keys, at most [n * k_] bits of the
    bit array are set. *)
Theorem CreateFilter_at_most_nk_bits bits_per_key keys dst out :
  CreateFilter (NewBloomFilterPolicy bits_per_key) keys dst = Some out ->
  Z.of_nat (length (set_bit_positions (length dst) out
     (8 * filter_bytes (NewBloomFilterPolicy bits_per_key) (Z.of_nat (length keys)))))
  <= Z.of_nat (length keys) * k_ (NewBloomFilterPolicy bits_per_key).
Proof.
  intros Hcreate.
  pose proof (k_range bits_per_key) as Hk.
  set (p := NewBloomFilterPolicy bits_per_key) in *.
  pose proof (filter_bytes_range p (Z.of_nat (length keys))) as Hr.
  destruct (decide (filter_bytes p (Z.of_nat (length keys)) = 0)) as [Hz|Hnz].
  { rewrite Hz. change (set_bit_positions _ _ (8 * 0)) with (@nil Z).
    cbn [length]. nia. }
  rewrite (CreateFilter_built _ _ _ Hnz) in Hcreate. injection Hcreate as <-.
  set (nb := filter_bytes p (Z.of_nat (length keys))) in *.
  assert (Hsub : set_bit_positions (length dst)
                   (dst ++ built_array p keys ++ [int_to_char (k_ p)]) (8 * nb)
                 ⊆+ keys ≫= key_probes (k_ p) (8 * nb)).
  { apply NoDup_submseteq.
    - apply NoDup_filter, NoDup_seqZ.
    - intros q Hq. apply list_elem_of_filter in Hq as [Hbit Hq].
      apply elem_of_seqZ in Hq.
      rewrite bit_at_app_r in Hbit.
      rewrite bit_at_app_l_eq in Hbit
        by (rewrite built_array_length;
            apply (probe_index_in_range (8 * nb)); lia).
      rewrite built_array_bit in Hbit by (exact Hnz || lia).
      apply bool_decide_eq_true in Hbit. exact Hbit. }
  apply submseteq_length in Hsub. rewrite all_probes_length in Hsub.
  apply Nat2Z.inj_le in Hsub. rewrite Nat2Z.inj_mul, Z2Nat.id in Hsub by lia.
  exact Hsub.
Qed.

(** X16 -- keys are told apart by their Bloom hash only: a key whose
    [BloomHash] equals that of a key of the list is matched by the filter
    built from the list. *)
Theorem KeyMayMatch_hash_collision bits_per_key keys dst out p' key key' :
  CreateFilter (NewBloomFilterPolicy bits_per_key) keys dst = Some out ->
  key ∈ keys -> BloomHash key' = BloomHash key ->
  exists f, out = dst ++ f /\ KeyMayMatch p' key' f = Some true.
Proof.
  intros Hcreate Hkey Hhash.
  pose proof (k_range bits_per_key) as Hk.
  set (p := NewBloomFilterPolicy bits_per_key) in *.
  destruct (decide (filter_bytes p (Z.of_nat (length keys)) = 0)) as [Hz|Hnz].
  { rewrite (CreateFilter_zero_bytes _ _ _ Hz) in Hcreate.
    destruct keys as [|key0 keys]; [inversion Hkey|].
    destruct (Z.to_nat (k_ p)) eqn:Hn; [lia|discriminate]. }
  rewrite (CreateFilter_built _ _ _ Hnz) in Hcreate. injection Hcreate as <-.
  eexists. split; [reflexivity|].
  rewrite <- (KeyMayMatch_built p p' keys key Hnz ltac:(lia) Hkey).
  unfold KeyMayMatch. rewrite Hhash. reflexivity.
Qed.

End Bloom.

(** ** A lower bound on [ln 2]

    [ln 2 >= 256 * ln (100271/100000) >= 256 * (1 - 100000/100271)], from
    [(100271/100000)^256 <= 2] and [1 + x <= exp x]. *)

Lemma ln_le_sub_1 (y : R) : (0 < y)%R -> (ln y <= y - 1)%R.
Proof.
  intros Hy. pose proof (exp_ineq1_le (ln y)) as H.
  rewrite exp_ln in H by assumption. lra.
Qed.
Lemma ln_le_compat (x y : R) : (0 < x)%R -> (x <= y)%R -> (ln x <= ln y)%R.
Proof.
  intros Hx [Hlt | ->]; [|lra].
  left. apply ln_increasing; assumption.
Qed.

Lemma ln_pow_256 (x : R) : (0 < x)%R -> (ln (x ^ 256) = 256 * ln x)%R.
Proof.
  intros Hx. rewrite ln_pow by assumption.
  rewrite INR_IZR_INZ. reflexivity.
Qed.

Lemma ln2_lower_bound : (69 / 100 + 1 / 1000 <= ln 2)%R.
Proof.
  assert (Hdiv : (ln (100000 / 100271) = ln 100000 - ln 100271)%R)
    by (unfold Rdiv; rewrite ln_mult, ln_Rinv by lra; lra).
  pose proof (ln_le_sub_1 (100000 / 100271) ltac:(lra)) as Hle.
  assert (H2 : (0 < 2)%R) by lra.
  assert (Hp : (0 < 100000 ^ 256)%R) by (apply pow_lt; apply IZR_lt; reflexivity).
  assert (Hpow : (ln (100271 ^ 256) <= ln (2 * 100000 ^ 256))%R).
  { apply ln_le_compat.
    - apply pow_lt. apply IZR_lt; reflexivity.
    - rewrite !pow_IZR, <- mult_IZR. apply IZR_le.
      vm_compute. discriminate. }
  rewrite (ln_mult _ _ H2 Hp) in Hpow. clear Hp.
  rewrite !ln_pow_256 in Hpow by (apply IZR_lt; reflexivity).
  lra.
Qed.

(** ** The probe count is not derived from [ln 2] *)

Lemma probe_count_derivation_witness :
  k_ (NewBloomFilterPolicy (fun t => t) 13) =
  clamp_1_30 (Zfloor (IZR 13 * 69 / 100)).
Proof.
  apply (probe_count_derivation (fun t => t) 13).
  unfold INT_MAX. lia.
Defined.

(** C3 (as stated) fails: with [bits_per_key = 42] the constructor stores
    [k_ = 28] while [floor (42 * ln 2) = 29]. *)
Lemma probe_count_not_floor_ln2 :
  ~ (forall (cast_oor : Z -> Z) (bits_per_key : Z),
       k_ (NewBloomFilterPolicy cast_oor bits_per_key) =
       clamp_1_30 (Zfloor (IZR bits_per_key * ln 2))).
Proof.
  intros H. specialize (H (fun t => t) 42).
  replace (k_ (NewBloomFilterPolicy (fun t => t) 42)) with 28 in H
    by (vm_compute; reflexivity).
  assert (Hfl : 29 <= Zfloor (IZR 42 * ln 2)).
  { apply Zfloor_lub. pose proof ln2_lower_bound. lra. }
  unfold clamp_1_30 in H. repeat case_match; lia.
Qed.

(** ** The theorems at concrete inputs

    The keys ["a"] and ["b"], [bits_per_key = 10], [sample_hash] for
    [Hash], a platform with signed [char] and a wrapping conversion. *)

Lemma no_false_negatives_witness :
  exists f,
    [Byte.x00; Byte.x80; Byte.x99; Byte.x01; Byte.x00; Byte.x60; Byte.x66;
     Byte.x00; Byte.x06] = [] ++ f /\
    KeyMayMatch sample_hash true (NewBloomFilterPolicy (fun t => t) 3)
      [Byte.x62] f = Some true.
Proof.
  apply (no_false_negatives sample_hash (fun t => t) true 10
           [[Byte.x61]; [Byte.x62]] []).
  - vm_compute. reflexivity.
  - apply list_elem_of_further, list_elem_of_here.
Defined.

Lemma CreateFilter_order_independent_witness :
  CreateFilter sample_hash true (NewBloomFilterPolicy (fun t => t) 10)
    [[Byte.x62]; [Byte.x61]] [] =
  CreateFilter sample_hash true (NewBloomFilterPolicy (fun t => t) 10)
    [[Byte.x61]; [Byte.x62]] [].
Proof.
  apply CreateFilter_order_independent. apply perm_swap.
Defined.

Lemma KeyMayMatch_malformed_witness :
  KeyMayMatch sample_hash true (NewBloomFilterPolicy (fun t => t) 10)
    [Byte.x61] [Byte.x06] = Some false.
Proof.
  apply KeyMayMatch_malformed. cbn. lia.
Defined.

Lemma KeyMayMatch_reserved_witness :
  KeyMayMatch sample_hash true (NewBloomFilterPolicy (fun t => t) 10)
    [Byte.x61] [Byte.x00; Byte.x1f] = Some true.
Proof.
  apply (KeyMayMatch_reserved sample_hash true _ _ _ Byte.x1f).
  - cbn. lia.
  - reflexivity.
  - vm_compute. discriminate.
Defined.

Lemma KeyMayMatch_zero_probes_witness :
  KeyMayMatch sample_hash true (NewBloomFilterPolicy (fun t => t) 10)
    [Byte.x61] [Byte.x00; Byte.x00] = Some true.
Proof.
  apply KeyMayMatch_zero_probes.
  - cbn. lia.
  - reflexivity.
Defined.

(** ** The further properties at concrete inputs *)

Lemma CreateFilter_appends_witness :
  exists array,
    [Byte.x00; Byte.x80; Byte.x99; Byte.x01; Byte.x00; Byte.x60; Byte.x66;
     Byte.x00; Byte.x06] =
      [] ++ array ++ [int_to_char (k_ (NewBloomFilterPolicy (fun t => t) 10))] /\
    Z.of_nat (length array) =
      filter_bytes (NewBloomFilterPolicy (fun t => t) 10)
        (Z.of_nat (length [[Byte.x61]; [Byte.x62]])) /\
    (8 <= length array)%nat.
Proof.
  apply (CreateFilter_appends sample_hash (fun t => t) true 10
           [[Byte.x61]; [Byte.x62]] []).
  vm_compute. reflexivity.
Defined.


Lemma CreateFilter_sets_exactly_witness :
  bit_at (length (@nil byte))
    [Byte.x00; Byte.x80; Byte.x99; Byte.x01; Byte.x00; Byte.x60; Byte.x66;
     Byte.x00; Byte.x06] 15 = true <->
  exists key j,
    key ∈ [[Byte.x61]; [Byte.x62]] /\
    0 <= j < k_ (NewBloomFilterPolicy (fun t => t) 10) /\
    15 = probe_position sample_hash
           (8 * filter_bytes (NewBloomFilterPolicy (fun t => t) 10)
                  (Z.of_nat (length [[Byte.x61]; [Byte.x62]])))
           key j.
Proof.
  apply (CreateFilter_sets_exactly sample_hash (fun t => t) true).
  - vm_compute. reflexivity.
  - replace (filter_bytes _ _) with 8 by (vm_compute; reflexivity). lia.
Defined.

Lemma KeyMayMatch_built_iff_witness :
  exists f b,
    [Byte.x00; Byte.x80; Byte.x99; Byte.x01; Byte.x00; Byte.x60; Byte.x66;
     Byte.x00; Byte.x06] = [] ++ f /\
    KeyMayMatch sample_hash true (NewBloomFilterPolicy (fun t => t) 3)
      [Byte.x63] f = Some b /\
    (b = true <->
     forall j, 0 <= j < k_ (NewBloomFilterPolicy (fun t => t) 10) ->
       exists key' j',
         key' ∈ [[Byte.x61]; [Byte.x62]] /\
         0 <= j' < k_ (NewBloomFilterPolicy (fun t => t) 10) /\
         probe_position sample_hash
           (8 * filter_bytes (NewBloomFilterPolicy (fun t => t) 10)
                  (Z.of_nat (length [[Byte.x61]; [Byte.x62]])))
           [Byte.x63] j =
         probe_position sample_hash
           (8 * filter_bytes (NewBloomFilterPolicy (fun t => t) 10)
                  (Z.of_nat (length [[Byte.x61]; [Byte.x62]])))
           key' j').
Proof.
  apply (KeyMayMatch_built_iff sample_hash (fun t => t) true).
  vm_compute. reflexivity.
Defined.

Lemma CreateFilter_same_members_witness :
  CreateFilter sample_hash true (NewBloomFilterPolicy (fun t => t) 10)
    [[Byte.x61]; [Byte.x61]; [Byte.x62]] [] =
  CreateFilter sample_hash true (NewBloomFilterPolicy (fun t => t) 10)
    [[Byte.x62]; [Byte.x61]; [Byte.x62]] [].
Proof.
  apply CreateFilter_same_members.
  - reflexivity.
  - intros key. split; intros H;
      repeat (apply elem_of_cons in H as [->|H]);
      try (apply elem_of_nil in H; contradiction);
      eauto using list_elem_of_here, list_elem_of_further.
Defined.

Lemma KeyMayMatch_defined_witness :
  exists b,
    KeyMayMatch sample_hash true (NewBloomFilterPolicy (fun t => t) 10)
      [Byte.x61] [Byte.x00; Byte.x01] = Some b.
Proof.
  apply KeyMayMatch_defined. cbn. lia.
Defined.

Lemma KeyMayMatch_all_probes_witness :
  exists b,
    KeyMayMatch sample_hash true (NewBloomFilterPolicy (fun t => t) 10)
      [Byte.x61] [Byte.x00; Byte.x80; Byte.x02] = Some b /\
    (b = true <->
     forall j, 0 <= j < char_to_size_t true Byte.x02 ->
       bit_at 0 [Byte.x00; Byte.x80; Byte.x02]
         (probe_position sample_hash
            (8 * (Z.of_nat (length [Byte.x00; Byte.x80; Byte.x02]) - 1))
            [Byte.x61] j) = true).
Proof.
  apply KeyMayMatch_all_probes.
  - cbn. lia.
  - cbn. lia.
  - reflexivity.
  - vm_compute. discriminate.
Defined.

Lemma KeyMayMatch_more_bits_witness :
  KeyMayMatch sample_hash true (NewBloomFilterPolicy (fun t => t) 10)
    [Byte.x61]
    [Byte.xff; Byte.xff; Byte.xff; Byte.xff; Byte.xff; Byte.xff; Byte.xff;
     Byte.xff; Byte.x06] = Some true.
Proof.
  apply (KeyMayMatch_more_bits sample_hash true _ _
           [Byte.x00; Byte.x80; Byte.x99; Byte.x01; Byte.x00; Byte.x60;
            Byte.x66; Byte.x00; Byte.x06]).
  - reflexivity.
  - reflexivity.
  - intros q Hq. unfold bit_at. cbn [Nat.add].
    pose proof (Z.mod_pos_bound q 8 ltac:(lia)) as Hm.
    assert (Hones : Z.testbit (byte.unsigned Byte.xff) (q mod 8) = true).
    { assert (Hc : q mod 8 = 0 \/ q mod 8 = 1 \/ q mod 8 = 2 \/ q mod 8 = 3 \/
                   q mod 8 = 4 \/ q mod 8 = 5 \/ q mod 8 = 6 \/ q mod 8 = 7)
        by lia.
      destruct Hc as [E|[E|[E|[E|[E|[E|[E|E]]]]]]]; rewrite E; reflexivity. }
    destruct (Z.to_nat (q / 8)) as [|[|[|[|[|[|[|[|[|n]]]]]]]]];
      cbn [lookup list_lookup]; intros Hbit;
      try exact Hones; try exact Hbit; discriminate Hbit.
  - vm_compute. reflexivity.
Defined.

Lemma rotate_right_17_bits_witness :
  Z.testbit (rotate_right_17 3611593133) 20 =
    Z.testbit 3611593133 ((20 + 17) mod 32) /\
  0 <= rotate_right_17 3611593133 < 2 ^ 32.
Proof.
  apply rotate_right_17_bits; lia.
Defined.


Lemma probe_count_monotone_witness :
  k_ (NewBloomFilterPolicy (fun t => t) 10) <=
  k_ (NewBloomFilterPolicy (fun t => t) 20).
Proof.
  apply probe_count_monotone; unfold INT_MAX; lia.
Defined.

Lemma probe_count_extremes_witness :
  (k_ (NewBloomFilterPolicy (fun t => t) 44) = 1 <-> 44 <= 2) /\
  (k_ (NewBloomFilterPolicy (fun t => t) 44) = 30 <-> 44 <= 44).
Proof.
  apply probe_count_extremes. unfold INT_MAX. lia.
Defined.

Lemma CreateFilter_at_most_nk_bits_witness :
  Z.of_nat (length (set_bit_positions (length (@nil byte))
     [Byte.x00; Byte.x80; Byte.x99; Byte.x01; Byte.x00; Byte.x60; Byte.x66;
      Byte.x00; Byte.x06]
     (8 * filter_bytes (NewBloomFilterPolicy (fun t => t) 10)
            (Z.of_nat (length [[Byte.x61]; [Byte.x62]])))))
  <= Z.of_nat (length [[Byte.x61]; [Byte.x62]]) *
     k_ (NewBloomFilterPolicy (fun t => t) 10).
Proof.
  apply (CreateFilter_at_most_nk_bits sample_hash (fun t => t) true).
  vm_compute. reflexivity.
Defined.

Lemma KeyMayMatch_hash_collision_witness :
  exists f,
    [Byte.x20; Byte.x00; Byte.x0a; Byte.x80; Byte.x00; Byte.x08; Byte.x00;
     Byte.x02; Byte.x06] = [] ++ f /\
    KeyMayMatch sample_hash true (NewBloomFilterPolicy (fun t => t) 3)
      [Byte.x00; Byte.x1f] f = Some true.
Proof.
  apply (KeyMayMatch_hash_collision sample_hash (fun t => t) true 10
           [[Byte.x01; Byte.x00]] [] _ _ [Byte.x01; Byte.x00]).
  - vm_compute. reflexivity.
  - apply list_elem_of_here.
  - vm_compute. reflexivity.
Defined.
